(** * generate_syscalls.py: the syscall table generator

    A shallow embedding of [src/generate_syscalls.py] and the properties of
    the text it generates.  Python integers are [Z], Python strings are
    [string] (ASCII), a [StringIO] buffer is the list of the chunks written
    to it, and the file system touched by [main] is a finite map from paths
    to contents. *)

From Stdlib Require Import ZArith Ascii String.
From stdpp Require Import gmap strings list pretty sorting.

Local Open Scope Z_scope.

(** ** The pieces of the Python runtime the generator uses *)

Definition nl : string := String "010"%char EmptyString.
Definition dq : string := String "034"%char EmptyString.

(** [str.upper()] on ASCII text: the letters a-z move to A-Z, every other
    character is kept. *)
Definition upper_char (c : ascii) : ascii :=
  let n := N_of_ascii c in
  if ((97 <=? n) && (n <=? 122))%N then ascii_of_N (n - 32) else c.

Fixpoint upper (s : string) : string :=
  match s with
  | EmptyString => EmptyString
  | String c s' => String (upper_char c) (upper s')
  end.

(** The [%d] conversion of the [%] operator. *)
Definition fmt_d (z : Z) : string := pretty z.

(** [sorted(iterable, key=...)]: Python guarantees a stable sort in
    increasing key order.  The stable insertion sort below is one such sort;
    [sorted_unique] shows that the guarantee leaves room for no other
    result. *)
Section sorted.
Context {A : Type} (key : A → Z).

Fixpoint insert_by_key (x : A) (l : list A) : list A :=
  match l with
  | [] => [x]
  | y :: l' => if key x <=? key y then x :: y :: l' else y :: insert_by_key x l'
  end.

Definition sorted (l : list A) : list A := foldr insert_by_key [] l.

Definition key_le (a b : A) : Prop := key a ≤ key b.
Definition has_key (k : Z) (a : A) : Prop := key a = k.
End sorted.

(** [io.StringIO]: the chunks written so far, oldest first. *)
Abbreviation StringIO := (list string).
Definition write (f : StringIO) (s : string) : StringIO := f ++ [s].
Definition getvalue (f : StringIO) : string := foldr String.append EmptyString f.

(** [range(a, b)] *)
Definition range (a b : Z) : list Z := seqZ a (b - a).

(** Truth value of an attribute that is [None] or an [int]: [None] and [0]
    are false. *)
Definition truthy (v : option Z) : bool :=
  match v with
  | None => false
  | Some n => negb (n =? 0)
  end.

(** ** The registry ([syscalls]) *)

(** The two architecture names the generators are called with, ['x86'] and
    ['x64']. *)
Inductive ArchName : Type := a_x86 | a_x64.

Global Instance ArchName_eq_dec : EqDecision ArchName.
Proof. solve_decision. Defined.

Inductive SyscallKind : Type := Regular | Irregular.

Global Instance SyscallKind_eq_dec : EqDecision SyscallKind.
Proof. solve_decision. Defined.

(** The value of an [argN] attribute: a [str] type tag, or anything else. *)
Inductive Attr : Type :=
  | AttrStr (tag : string)
  | AttrOther.

Global Instance Attr_eq_dec : EqDecision Attr.
Proof. solve_decision. Defined.

(** Modelled from the spec: the syscall definition objects of the [syscalls]
    module (3. DATA MODEL): a kind ([isinstance(obj, syscalls.RegularSyscall)]
    holds for [Regular]), one optional code per architecture ([None] when the
    syscall is undefined there) and the attributes [arg1] .. [arg5], each of
    which may be missing. *)
Record Syscall : Type := mkSyscall {
  kind : SyscallKind;
  x86 : option Z;
  x64 : option Z;
  arg1 : option Attr;
  arg2 : option Attr;
  arg3 : option Attr;
  arg4 : option Attr;
  arg5 : option Attr
}.

Global Instance Syscall_eq_dec : EqDecision Syscall.
Proof. solve_decision. Defined.

(** What [syscalls.all()] returns: [(name, obj)] pairs in the registry's
    order. *)
Abbreviation Registry := (list (string * Syscall)).

(** [getattr(obj, arch)] *)
Definition getattr (obj : Syscall) (arch : ArchName) : option Z :=
  match arch with
  | a_x86 => x86 obj
  | a_x64 => x64 obj
  end.

(** [getattr(syscall, 'arg' + str(arg), None)] *)
Definition getattr_arg (syscall : Syscall) (arg : Z) : option Attr :=
  if arg =? 1 then arg1 syscall
  else if arg =? 2 then arg2 syscall
  else if arg =? 3 then arg3 syscall
  else if arg =? 4 then arg4 syscall
  else if arg =? 5 then arg5 syscall
  else None.

(** Modelled from the spec: [syscalls.for_arch(arch)], whose source is not
    part of the generator (6. EXTERNAL INTERFACES): the pairs of [all()], in
    the same order, restricted to the syscalls defined on [arch]. *)
Definition for_arch (all : Registry) (arch : ArchName) : Registry :=
  filter (λ x, is_Some (getattr x.2 arch)) all.

(** ** The constant tables *)

Definition arch_syscall_number (arch : ArchName) (syscall : string * Syscall) : Z :=
  let s := getattr syscall.2 arch in
  match s with
  | None => -1
  | Some s => s
  end.

(** The loop body shared by the two constant writers is kept apart in each
    of them, as in the source; the loop state is [(undefined_syscall, f)]. *)
Definition write_syscall_consts (all : Registry) (f : StringIO) (arch : ArchName) : StringIO :=
  let undefined_syscall := -1 in
  let '(_, f) :=
    fold_left
      (λ '(undefined_syscall, f) '(name, obj),
         let syscall_number := getattr obj arch in
         let '(enum_number, undefined_syscall) :=
           match syscall_number with
           | Some n => (n, undefined_syscall)
           | None => (undefined_syscall, undefined_syscall - 1)
           end in
         (undefined_syscall,
          write f ("pub const " +:+ upper name +:+ " : i32 = " +:+ fmt_d enum_number +:+ ";" +:+ nl)))
      (sorted (arch_syscall_number arch) all)
      (undefined_syscall, f) in
  write f nl.

Definition write_syscall_consts_for_tests (all : Registry) (f : StringIO) (arch : ArchName) : StringIO :=
  let undefined_syscall := -1 in
  let '(_, f) :=
    fold_left
      (λ '(undefined_syscall, f) '(name, obj),
         let syscall_number := getattr obj arch in
         let '(enum_number, undefined_syscall) :=
           match syscall_number with
           | Some n => (n, undefined_syscall)
           | None => (undefined_syscall, undefined_syscall - 1)
           end in
         (undefined_syscall,
          write f ("pub const RR_" +:+ upper name +:+ " = " +:+ fmt_d enum_number +:+ "," +:+ nl)))
      (sorted (arch_syscall_number arch) all)
      (undefined_syscall, f) in
  write f nl.

(** The [(name.upper(), enum_number)] tuples handed to the [%] operator, one
    per loop iteration, when the loop starts on [l] with the counter at
    [undefined_syscall]. *)
Fixpoint enum_numbers (arch : ArchName) (undefined_syscall : Z)
    (l : list (string * Syscall)) : list (string * Z) :=
  match l with
  | [] => []
  | (name, obj) :: l' =>
      match getattr obj arch with
      | Some n => (upper name, n) :: enum_numbers arch undefined_syscall l'
      | None =>
          (upper name, undefined_syscall) :: enum_numbers arch (undefined_syscall - 1) l'
      end
  end.

(** The constant table of an architecture: the tuples of a whole run. *)
Definition constant_table (all : Registry) (arch : ArchName) : list (string * Z) :=
  enum_numbers arch (-1) (sorted (arch_syscall_number arch) all).

Definition const_line (e : string * Z) : string :=
  "pub const " +:+ e.1 +:+ " : i32 = " +:+ fmt_d e.2 +:+ ";" +:+ nl.

Definition const_line_for_tests (e : string * Z) : string :=
  "pub const RR_" +:+ e.1 +:+ " = " +:+ fmt_d e.2 +:+ "," +:+ nl.

(** The first entry of a table with the given constant name. *)
Definition lookup_const (table : list (string * Z)) (cname : string) : option Z :=
  snd <$> (snd <$> list_find (λ e, e.1 = cname) table).

Definition undefined_on (arch : ArchName) (x : string * Syscall) : Prop :=
  getattr x.2 arch = None.

Global Instance undefined_on_dec arch x : Decision (undefined_on arch x).
Proof. unfold undefined_on. apply _. Defined.

(** ** The name resolver *)

Definition write_syscallname_arch (all : Registry) (f : StringIO) (arch : ArchName) : StringIO :=
  let f := write f ("use std::fmt::Write;" +:+ nl) in
  let specializer :=
    match arch with
    | a_x86 => "x86_arch"
    | a_x64 => "x64_arch"
    end in
  let f := write f ("use crate:: " +:+ specializer +:+ ";" +:+ nl) in
  let f := write f nl in
  let f := write f ("pub fn syscallname_arch(syscall : i32) -> String {" +:+ nl) in
  let f := write f ("  match syscall {" +:+ nl) in
  let write_case (f : StringIO) (name : string) : StringIO :=
    write f ("    " +:+ specializer +:+ "::" +:+ upper name +:+ " => "
             +:+ dq +:+ name +:+ dq +:+ ".into()," +:+ nl) in
  let f := fold_left (λ f '(name, _), write_case f name) (for_arch all arch) f in
  let f := write f ("    _ => {" +:+ nl) in
  let f := write f ("      let mut s = String::new();" +:+ nl) in
  let f := write f ("      write!(s, " +:+ dq +:+ "<unknown-syscall-{}>" +:+ dq
                    +:+ ", syscall).unwrap();" +:+ nl) in
  let f := write f ("      s" +:+ nl) in
  let f := write f ("    }" +:+ nl) in
  let f := write f ("  }" +:+ nl) in
  let f := write f ("}" +:+ nl) in
  write f nl.

(** ** The argument recorder *)

Definition write_syscall_record_cases (all : Registry) (f : StringIO) : StringIO :=
  let write_recorder_for_arg (f : StringIO) (syscall : Syscall) (arg : Z) : StringIO :=
    let arg_descriptor := getattr_arg syscall arg in
    match arg_descriptor with
    | Some (AttrStr tag) =>
        write f ("    syscall_state.reg_parameter<" +:+ tag +:+ ">(" +:+ fmt_d arg +:+ ");" +:+ nl)
    | _ => f
    end in
  fold_left
    (λ f '(name, obj),
       match kind obj with
       | Regular =>
           let f := write f ("  case Arch::" +:+ name +:+ ":" +:+ nl) in
           let f := fold_left (λ f arg, write_recorder_for_arg f obj arg) (range 1 6) f in
           write f ("    return PREVENT_SWITCH;" +:+ nl)
       | Irregular => f
       end)
    all f.

(** ** The helper functions *)

Definition lines (l : list string) : string :=
  foldr (λ s acc, s +:+ nl +:+ acc) EmptyString l.

(** The three templates, as functions of the value substituted for
    [${syscall}]. *)
Definition has_syscall (syscall : string) : string :=
  lines [
    "inline bool";
    "has_" +:+ syscall +:+ "_syscall(SupportedArch arch) {";
    "  switch (arch) {";
    "    case x86:";
    "      return X86Arch::" +:+ syscall +:+ " >= 0;";
    "    case x86_64:";
    "      return X64Arch::" +:+ syscall +:+ " >= 0;";
    "    default:";
    "      DEBUG_ASSERT(0 && " +:+ dq +:+ "unsupported architecture" +:+ dq +:+ ");";
    "      return false;";
    "  }";
    "}" ].

Definition is_syscall (syscall : string) : string :=
  lines [
    "inline bool";
    "is_" +:+ syscall +:+ "_syscall(int syscallno, SupportedArch arch) {";
    "  switch (arch) {";
    "    case x86:";
    "      return syscallno >= 0 && syscallno == X86Arch::" +:+ syscall +:+ ";";
    "    case x86_64:";
    "      return syscallno >= 0 && syscallno == X64Arch::" +:+ syscall +:+ ";";
    "    default:";
    "      DEBUG_ASSERT(0 && " +:+ dq +:+ "unsupported architecture" +:+ dq +:+ ");";
    "      return false;";
    "  }";
    "}" ].

Definition syscall_number (syscall : string) : string :=
  lines [
    "inline int";
    "syscall_number_for_" +:+ syscall +:+ "(SupportedArch arch) {";
    "  switch (arch) {";
    "    case x86:";
    "      DEBUG_ASSERT(X86Arch::" +:+ syscall +:+ " >= 0);";
    "      return X86Arch::" +:+ syscall +:+ ";";
    "    case x86_64:";
    "      DEBUG_ASSERT(X64Arch::" +:+ syscall +:+ " >= 0);";
    "      return X64Arch::" +:+ syscall +:+ ";";
    "    default:";
    "      DEBUG_ASSERT(0 && " +:+ dq +:+ "unsupported architecture" +:+ dq +:+ ");";
    "      return -1;";
    "  }";
    "}" ].

Definition write_syscall_helper_functions (all : Registry) (f : StringIO) : StringIO :=
  let write_helpers (f : StringIO) (syscall : string) : StringIO :=
    let f := write f (has_syscall syscall) in
    let f := write f (is_syscall syscall) in
    write f (syscall_number syscall) in
  fold_left (λ f '(name, obj), write_helpers f name) all f.

(** ** The static assertions *)

Definition write_check_syscall_numbers (all : Registry) (f : StringIO) : StringIO :=
  fold_left
    (λ f '(name, obj),
       if negb (truthy (x86 obj)) then f
       else write f ("static_assert(X86Arch::" +:+ name +:+ " == SYS_" +:+ name +:+ ", "
                     +:+ dq +:+ "Incorrect syscall number for " +:+ name +:+ dq +:+ ");" +:+ nl))
    all f.

(** ** The driver *)

(** [s.rfind(c)] as a split: [Some (l, r)] when [s = l ++ r] and [r] starts
    at the last occurrence of [c]; [None] when [c] does not occur. *)
Fixpoint rsplit (c : ascii) (s : string) : option (string * string) :=
  match s with
  | EmptyString => None
  | String a s' =>
      match rsplit c s' with
      | Some (l, r) => Some (String a l, r)
      | None => if decide (a = c) then Some (EmptyString, s) else None
      end
  end.

(** The leading run of [c] in [s], and what follows it. *)
Fixpoint span_char (c : ascii) (s : string) : string * string :=
  match s with
  | EmptyString => (EmptyString, EmptyString)
  | String a s' =>
      if decide (a = c) then let '(l, r) := span_char c s' in (String a l, r)
      else (EmptyString, s)
  end.

(** [os.path.basename] (POSIX): what follows the last slash. *)
Definition basename (p : string) : string :=
  match rsplit "/" p with
  | Some (_, String _ r) => r
  | _ => p
  end.

(** [os.path.splitext] (POSIX): the extension starts at the last dot of the
    last path component, leading dots of that component apart. *)
Definition splitext (p : string) : string * string :=
  let '(head, tail) :=
    match rsplit "/" p with
    | Some (l, String a r) => (l +:+ String a EmptyString, r)
    | _ => (EmptyString, p)
    end in
  let '(dots, rest) := span_char "." tail in
  match rsplit "." rest with
  | Some (l, r) => (head +:+ dots +:+ l, r)
  | None => (p, EmptyString)
  end.

(** The files [main] can see: the content of every existing path, and the
    paths opened for writing so far, oldest first. *)
Record FileSystem : Type := mkFileSystem {
  files : gmap string string;
  opened_for_writing : list string
}.

(** [with open(filename, 'w') as f: f.write(content)] *)
Definition write_file (fs : FileSystem) (filename content : string) : FileSystem :=
  {| files := <[filename := content]> (files fs);
     opened_for_writing := opened_for_writing fs ++ [filename] |}.

Section driver.
(** The registry returned by [syscalls.all()], and what
    [assembly_templates.generate] does to the stream it is given. *)
Variable all : Registry.
Variable assembly_templates_generate : StringIO → StringIO.

Definition generators_for (base : string) : option (StringIO → StringIO) :=
  if decide (base = "AssemblyTemplates") then
    Some (λ f, assembly_templates_generate f)
  else if decide (base = "CheckSyscallNumbers") then
    Some (write_check_syscall_numbers all)
  else if decide (base = "syscall_consts_x86_generated") then
    Some (λ f, write_syscall_consts all f a_x86)
  else if decide (base = "syscall_consts_x64_generated") then
    Some (λ f, write_syscall_consts all f a_x64)
  else if decide (base = "syscall_consts_for_tests_x86_generated") then
    Some (λ f, write_syscall_consts_for_tests all f a_x86)
  else if decide (base = "syscall_consts_for_tests_x64_generated") then
    Some (λ f, write_syscall_consts_for_tests all f a_x64)
  else if decide (base = "syscall_name_arch_x86_generated") then
    Some (λ f, write_syscallname_arch all f a_x86)
  else if decide (base = "syscall_name_arch_x64_generated") then
    Some (λ f, write_syscallname_arch all f a_x64)
  else if decide (base = "SyscallRecordCase") then
    Some (write_syscall_record_cases all)
  else if decide (base = "SyscallHelperFunctions") then
    Some (write_syscall_helper_functions all)
  else None.

(** [None] is an uncaught exception ([IndexError] on an empty [argv],
    [KeyError] on an unknown base name); the files are then as they
    were. *)
Definition main (argv : list string) (fs : FileSystem) : option FileSystem :=
  filename ← argv !! 0%nat;
  let '(base, extension) := splitext (basename filename) in
  let before :=
    match files fs !! filename with
    | Some content => content
    | None => EmptyString
    end in
  generator ← generators_for base;
  let stream := generator [] in
  let after := getvalue stream in
  if decide (before ≠ after) then Some (write_file fs filename after)
  else Some fs.
End driver.

(** ** What the generated code computes *)

Module Generated.

(** The C++ [SupportedArch] tags the helpers switch on; [unsupported]
    stands for any value that reaches the [default] label. *)
Inductive SupportedArch : Type := x86 | x86_64 | unsupported.

Inductive outcome (T : Type) : Type :=
  | Return (v : T)
  | AssertionFailed
  | Undeclared.
Arguments Return {T} v.
Arguments AssertionFailed {T}.
Arguments Undeclared {T}.

(** The generated constant of a syscall on an architecture, which the
    templates write [X86Arch::${syscall}] and [X64Arch::${syscall}]: the
    entry of that architecture's constant table, declared there under the
    uppercased name. *)
Definition arch_constant (all : Registry) (arch : ArchName) (syscall : string) : option Z :=
  lookup_const (constant_table all arch) (upper syscall).

(** [has_${syscall}_syscall(arch)] *)
Definition has_syscall (all : Registry) (syscall : string) (arch : SupportedArch) : outcome bool :=
  match arch_constant all a_x86 syscall, arch_constant all a_x64 syscall with
  | Some X86Arch, Some X64Arch =>
      match arch with
      | x86 => Return (0 <=? X86Arch)
      | x86_64 => Return (0 <=? X64Arch)
      | unsupported => AssertionFailed
      end
  | _, _ => Undeclared
  end.

(** [is_${syscall}_syscall(syscallno, arch)] *)
Definition is_syscall (all : Registry) (syscall : string) (syscallno : Z)
    (arch : SupportedArch) : outcome bool :=
  match arch_constant all a_x86 syscall, arch_constant all a_x64 syscall with
  | Some X86Arch, Some X64Arch =>
      match arch with
      | x86 => Return ((0 <=? syscallno) && (syscallno =? X86Arch))
      | x86_64 => Return ((0 <=? syscallno) && (syscallno =? X64Arch))
      | unsupported => AssertionFailed
      end
  | _, _ => Undeclared
  end.



(** The arms written by [write_case]: the constant matched on and the
    literal returned. *)
Definition match_arms (all : Registry) (arch : ArchName) : list (string * string) :=
  (λ x, (upper x.1, x.1)) <$> for_arch all arch.

Definition arm_line (arch : ArchName) (arm : string * string) : string :=
  "    " +:+ match arch with a_x86 => "x86_arch" | a_x64 => "x64_arch" end
  +:+ "::" +:+ arm.1 +:+ " => " +:+ dq +:+ arm.2 +:+ dq +:+ ".into()," +:+ nl.

(** [syscallname_arch(syscall)]: the first arm whose constant equals
    [syscall] gives the name, the [_] arm formats the number.  [None] when
    an arm names a constant the table does not declare. *)
Definition syscallname_arch (all : Registry) (arch : ArchName) (syscall : Z) : option string :=
  arms ← mapM (λ arm : string * string,
                 c ← lookup_const (constant_table all arch) arm.1; Some (c, arm.2))
              (match_arms all arch);
  match list_find (λ arm : Z * string, arm.1 = syscall) arms with
  | Some (_, (_, literal)) => Some literal
  | None => Some ("<unknown-syscall-" +:+ fmt_d syscall +:+ ">")
  end.

End Generated.

(** ** The registry of the specification's scenario *)

Definition plain_syscall (k : SyscallKind) (code_x86 code_x64 : option Z) : Syscall :=
  mkSyscall k code_x86 code_x64 None None None None None.

Definition scenario : Registry :=
  [ ("read", plain_syscall Regular (Some 3) (Some 0));
    ("write", plain_syscall Regular (Some 4) (Some 1));
    ("futex", plain_syscall Regular None (Some 202)) ].

(** A registry holding [restart_syscall], whose x86 code is 0. *)
Definition restart_registry : Registry :=
  [ ("restart_syscall", plain_syscall Irregular (Some 0) (Some 219)) ].

Definition assert_line (name : string) : string :=
  "static_assert(X86Arch::" +:+ name +:+ " == SYS_" +:+ name +:+ ", "
  +:+ dq +:+ "Incorrect syscall number for " +:+ name +:+ dq +:+ ");" +:+ nl.

(** The chunks of the argument recorder. *)
Definition case_line (name : string) : string :=
  "  case Arch::" +:+ name +:+ ":" +:+ nl.

Definition reg_line (tag : string) (pos : Z) : string :=
  "    syscall_state.reg_parameter<" +:+ tag +:+ ">(" +:+ fmt_d pos +:+ ");" +:+ nl.

Definition stop_line : string := "    return PREVENT_SWITCH;" +:+ nl.

(** The registration of a position, when it carries a type tag. *)
Definition registration (obj : Syscall) (pos : Z) : option string :=
  match getattr_arg obj pos with
  | Some (AttrStr tag) => Some (reg_line tag pos)
  | _ => None
  end.

(** The registry invariant on the codes of an architecture: a defined code
    is not negative. *)
Definition codes_not_negative (arch : ArchName) (l : list (string * Syscall)) : Prop :=
  ∀ name obj c, (name, obj) ∈ l → getattr obj arch = Some c → 0 ≤ c.

(** * Properties *)

(** ** [sorted] is the stable sort *)

Section sorted_facts.
Context {A : Type} (key : A → Z).

Lemma insert_by_key_perm (x : A) (l : list A) : insert_by_key key x l ≡ₚ x :: l.
Proof.
  induction l as [|y l IH]; simpl; [done|].
  destruct (key x <=? key y); [done|].
  rewrite IH. apply Permutation_swap.
Qed.

Lemma sorted_perm (l : list A) : sorted key l ≡ₚ l.
Proof.
  induction l as [|x l IH]; simpl; [done|].
  unfold sorted in *. simpl. by rewrite insert_by_key_perm, IH.
Qed.

Lemma insert_by_key_sorted (x : A) (l : list A) :
  StronglySorted (key_le key) l → StronglySorted (key_le key) (insert_by_key key x l).
Proof.
  induction 1 as [|y l Hl IH Hy]; simpl.
  - repeat constructor.
  - destruct (Z.leb_spec (key x) (key y)) as [Hxy|Hxy].
    + constructor; [by constructor|].
      constructor; [done|].
      eapply Forall_impl; [exact Hy|]. unfold key_le. intros; lia.
    + constructor; [done|].
      rewrite insert_by_key_perm. constructor; [|done].
      unfold key_le. lia.
Qed.

Lemma sorted_sorted (l : list A) : StronglySorted (key_le key) (sorted key l).
Proof.
  induction l as [|x l IH]; [constructor|].
  by apply insert_by_key_sorted.
Qed.

(** Insertion moves [x] past strictly smaller keys only, so the elements
    of any one key keep their order. *)
Lemma insert_by_key_stable (k : Z) (x : A) (l : list A) :
  filter (λ a, key a = k) (insert_by_key key x l) = filter (λ a, key a = k) (x :: l).
Proof.
  induction l as [|y l IH]; simpl; [done|].
  destruct (Z.leb_spec (key x) (key y)) as [Hxy|Hxy]; [done|].
  rewrite (filter_cons _ y (insert_by_key key x l)), IH.
  rewrite !filter_cons.
  repeat case_decide; try done; lia.
Qed.

Lemma sorted_stable (k : Z) (l : list A) :
  filter (λ a, key a = k) (sorted key l) = filter (λ a, key a = k) l.
Proof.
  induction l as [|x l IH]; [done|].
  change (sorted key (x :: l)) with (insert_by_key key x (sorted key l)).
  rewrite insert_by_key_stable, !filter_cons, IH. done.
Qed.

(** Two key-sorted lists with the same elements in the same order under
    every key are the same list. *)
Lemma sorted_unique (l1 l2 : list A) :
  StronglySorted (key_le key) l1 →
  StronglySorted (key_le key) l2 →
  (∀ k, filter (λ a, key a = k) l1 = filter (λ a, key a = k) l2) →
  l1 = l2.
Proof.
  intros H1. revert l2.
  induction H1 as [|x l1 Hl1 IH Hx]; intros l2 H2 Hf.
  - destruct l2 as [|y l2]; [done|].
    specialize (Hf (key y)). rewrite filter_cons in Hf.
    case_decide; [|done]. discriminate.
  - destruct H2 as [|y l2 Hl2 Hy].
    { specialize (Hf (key x)). rewrite filter_cons in Hf.
      case_decide; [|done]. discriminate. }
    assert (key x = key y) as Hk.
    { assert (x ∈ y :: l2) as Hxin.
      { eapply (list_elem_of_filter (λ a, key a = key x)).
        rewrite <- Hf, filter_cons. case_decide; [|done]. left. }
      assert (y ∈ x :: l1) as Hyin.
      { eapply (list_elem_of_filter (λ a, key a = key y)).
        rewrite Hf, filter_cons. case_decide; [|done]. left. }
      apply elem_of_cons in Hxin as [->|Hxin]; [done|].
      apply elem_of_cons in Hyin as [->|Hyin]; [done|].
      rewrite Forall_forall in Hx, Hy.
      specialize (Hx _ Hyin). specialize (Hy _ Hxin). unfold key_le in *. lia. }
    assert (x = y) as ->.
    { specialize (Hf (key x)). rewrite !filter_cons in Hf.
      repeat case_decide; try done; congruence. }
    f_equal. apply IH; [done|].
    intros k. specialize (Hf k). rewrite !filter_cons in Hf.
    case_decide; [by inversion Hf|done].
Qed.
End sorted_facts.

(** ** The constant tables *)

Lemma write_syscall_consts_table (all : Registry) (f : StringIO) (arch : ArchName) :
  write_syscall_consts all f arch = f ++ (const_line <$> constant_table all arch) ++ [nl].
Proof.
  unfold write_syscall_consts, constant_table.
  generalize (sorted (arch_syscall_number arch) all) as l.
  generalize (-1) as u. intros u l. revert u f.
  induction l as [|[name obj] l IH]; intros u f; simpl; [done|].
  destruct (getattr obj arch) as [n|]; simpl; rewrite IH; unfold write;
    by rewrite <- app_assoc.
Qed.

Lemma write_syscall_consts_for_tests_table (all : Registry) (f : StringIO) (arch : ArchName) :
  write_syscall_consts_for_tests all f arch
  = f ++ (const_line_for_tests <$> constant_table all arch) ++ [nl].
Proof.
  unfold write_syscall_consts_for_tests, constant_table.
  generalize (sorted (arch_syscall_number arch) all) as l.
  generalize (-1) as u. intros u l. revert u f.
  induction l as [|[name obj] l IH]; intros u f; simpl; [done|].
  destruct (getattr obj arch) as [n|]; simpl; rewrite IH; unfold write;
    by rewrite <- app_assoc.
Qed.

Lemma enum_numbers_names (arch : ArchName) (u : Z) (l : list (string * Syscall)) :
  (enum_numbers arch u l).*1 = upper <$> l.*1.
Proof.
  revert u. induction l as [|[name obj] l IH]; intros u; simpl; [done|].
  destruct (getattr obj arch); simpl; by rewrite IH.
Qed.

Lemma enum_numbers_length (arch : ArchName) (u : Z) (l : list (string * Syscall)) :
  length (enum_numbers arch u l) = length l.
Proof.
  rewrite <- (length_fmap fst), enum_numbers_names. by rewrite !length_fmap.
Qed.

Lemma enum_numbers_no_entry (arch : ArchName) (u : Z) (l : list (string * Syscall))
    (cname : string) :
  cname ∉ upper <$> l.*1 →
  filter (λ e : string * Z, e.1 = cname) (enum_numbers arch u l) = [].
Proof.
  revert u. induction l as [|[name obj] l IH]; intros u Hnot; simpl; [done|].
  simpl in Hnot. apply not_elem_of_cons in Hnot as [Hne Hnot].
  destruct (getattr obj arch); rewrite filter_cons; simpl;
    (case_decide; [congruence|]); by apply IH.
Qed.

Lemma enum_numbers_entry (arch : ArchName) (u : Z) (l : list (string * Syscall))
    (name : string) (obj : Syscall) (c : Z) :
  NoDup (upper <$> l.*1) →
  (name, obj) ∈ l →
  getattr obj arch = Some c →
  filter (λ e : string * Z, e.1 = upper name) (enum_numbers arch u l) = [(upper name, c)].
Proof.
  revert u. induction l as [|[name' obj'] l IH]; intros u Hnd Hin Hc.
  { by apply elem_of_nil in Hin. }
  simpl in Hnd. apply NoDup_cons in Hnd as [Hfresh Hnd].
  apply elem_of_cons in Hin as [Heq|Hin].
  - inversion Heq; subst name' obj'. simpl. rewrite Hc, filter_cons. simpl.
    case_decide; [|done]. f_equal. by apply enum_numbers_no_entry.
  - assert (upper name' ≠ upper name) as Hne.
    { intros Heq. apply Hfresh. rewrite Heq.
      apply list_elem_of_fmap. exists name. split; [done|].
      apply list_elem_of_fmap. by exists (name, obj). }
    simpl. destruct (getattr obj' arch); rewrite filter_cons; simpl;
      (case_decide; [congruence|]); by apply IH.
Qed.

Lemma sorted_names_NoDup (arch : ArchName) (all : Registry) :
  NoDup (upper <$> all.*1) →
  NoDup (upper <$> (sorted (arch_syscall_number arch) all).*1).
Proof. intros Hnd. by rewrite sorted_perm. Qed.

Lemma elem_of_sorted (arch : ArchName) (all : Registry) (x : string * Syscall) :
  x ∈ sorted (arch_syscall_number arch) all ↔ x ∈ all.
Proof. by rewrite sorted_perm. Qed.

(** C1: a syscall with a defined code [c] on an architecture has exactly one
    entry in that architecture's constant table; the entry carries the
    uppercased canonical name and the value [c], and it is written as one
    [pub const] line of the generated text.  Names are unique as
    case-normalized identifiers (3. DATA MODEL): no two of them have the same
    uppercase form. *)
Theorem constant_of_defined_syscall (all : Registry) (arch : ArchName)
    (name : string) (obj : Syscall) (c : Z) :
  NoDup (upper <$> all.*1) →
  (name, obj) ∈ all →
  getattr obj arch = Some c →
  filter (λ e : string * Z, e.1 = upper name) (constant_table all arch) = [(upper name, c)]
  ∧ write_syscall_consts all [] arch = (const_line <$> constant_table all arch) ++ [nl]
  ∧ ("pub const " +:+ upper name +:+ " : i32 = " +:+ fmt_d c +:+ ";" +:+ nl)
      ∈ write_syscall_consts all [] arch.
Proof.
  intros Hnd Hin Hc.
  assert (filter (λ e : string * Z, e.1 = upper name) (constant_table all arch)
          = [(upper name, c)]) as Hentry.
  { apply enum_numbers_entry with obj; [by apply sorted_names_NoDup| |done].
    by apply elem_of_sorted. }
  split; [done|]. split; [apply (write_syscall_consts_table all [] arch)|].
  rewrite write_syscall_consts_table. simpl.
  apply elem_of_app. left.
  apply list_elem_of_fmap. exists (upper name, c). split; [done|].
  eapply (list_elem_of_filter (λ e : string * Z, e.1 = upper name)).
  rewrite Hentry. left.
Qed.

Lemma constant_of_defined_syscall_witness :
  filter (λ e : string * Z, e.1 = upper "read") (constant_table scenario a_x86)
  = [(upper "read", 3)]
  ∧ write_syscall_consts scenario [] a_x86
    = (const_line <$> constant_table scenario a_x86) ++ [nl]
  ∧ ("pub const " +:+ upper "read" +:+ " : i32 = " +:+ fmt_d 3 +:+ ";" +:+ nl)
      ∈ write_syscall_consts scenario [] a_x86.
Proof.
  apply (constant_of_defined_syscall scenario a_x86 "read"
           (plain_syscall Regular (Some 3) (Some 0)) 3).
  - apply (bool_decide_unpack _). vm_compute. exact I.
  - apply (bool_decide_unpack _). vm_compute. exact I.
  - reflexivity.
Defined.



(** C3: the constants of an architecture are emitted in the order of the
    registry's enumeration sorted by the syscall's code on that architecture,
    with -1 standing in for an undefined code: the order is a rearrangement
    of the enumeration, its keys never decrease, syscalls of equal key keep
    the order the registry gives them, and no other order has these
    properties. *)
Theorem emission_order (all : Registry) (arch : ArchName) :
  let key := arch_syscall_number arch in
  let emitted := sorted key all in
  (∀ x, key x = default (-1) (getattr x.2 arch))
  ∧ (constant_table all arch).*1 = upper <$> emitted.*1
  ∧ write_syscall_consts all [] arch = (const_line <$> constant_table all arch) ++ [nl]
  ∧ emitted ≡ₚ all
  ∧ StronglySorted (λ a b, key a ≤ key b) emitted
  ∧ (∀ k, filter (λ a, key a = k) emitted = filter (λ a, key a = k) all)
  ∧ (∀ l, StronglySorted (λ a b, key a ≤ key b) l →
          (∀ k, filter (λ a, key a = k) l = filter (λ a, key a = k) all) →
          l = emitted).
Proof.
  intros key emitted. split_and!.
  - intros [name obj]. unfold key, arch_syscall_number. simpl.
    by destruct (getattr obj arch).
  - apply enum_numbers_names.
  - apply (write_syscall_consts_table all [] arch).
  - apply sorted_perm.
  - apply (sorted_sorted key).
  - intros k. apply sorted_stable.
  - intros l Hl Hf. apply (sorted_unique key); [done|apply sorted_sorted|].
    intros k. rewrite Hf. symmetry. apply sorted_stable.
Qed.

(** C10: on every architecture the constant writer and its for-tests variant
    emit the same ordered table of (uppercased name, value) pairs, one line
    per pair; only the line format differs, the for-tests one putting [RR_]
    before the name. *)
Theorem consts_for_tests_same_table (all : Registry) (arch : ArchName) (f : StringIO) :
  write_syscall_consts all f arch
  = f ++ ((λ e : string * Z,
             "pub const " +:+ e.1 +:+ " : i32 = " +:+ fmt_d e.2 +:+ ";" +:+ nl)
            <$> constant_table all arch) ++ [nl]
  ∧ write_syscall_consts_for_tests all f arch
    = f ++ ((λ e : string * Z,
               "pub const RR_" +:+ e.1 +:+ " = " +:+ fmt_d e.2 +:+ "," +:+ nl)
              <$> constant_table all arch) ++ [nl].
Proof.
  split.
  - apply write_syscall_consts_table.
  - apply write_syscall_consts_for_tests_table.
Qed.

(** ** The static assertions *)

Lemma write_check_syscall_numbers_lines (all : Registry) (f : StringIO) :
  write_check_syscall_numbers all f
  = f ++ (assert_line <$> (filter (λ x, truthy (x86 x.2) = true) all).*1).
Proof.
  unfold write_check_syscall_numbers. revert f.
  induction all as [|[name obj] all IH]; intros f.
  { simpl. by rewrite app_nil_r. }
  rewrite filter_cons. cbn [fold_left]. rewrite IH. simpl.
  destruct (truthy (x86 obj)); simpl; try done.
  unfold write. by rewrite <- app_assoc.
Qed.

(** C4, on the code: a syscall gets its assertion when its x86 code is
    defined and not 0; [restart_syscall], defined on x86 with code 0, gets
    none. *)
Theorem check_syscall_numbers_skips_code_zero :
  (∀ all : Registry,
     write_check_syscall_numbers all []
     = assert_line <$> (filter (λ x, is_Some (x86 x.2) ∧ x86 x.2 ≠ Some 0) all).*1)
  ∧ getattr (plain_syscall Irregular (Some 0) (Some 219)) a_x86 = Some 0
  ∧ write_check_syscall_numbers restart_registry [] = [].
Proof.
  split; [|done].
  intros all. rewrite write_check_syscall_numbers_lines. simpl.
  do 2 f_equal. apply list_filter_iff. intros [name obj]. simpl.
  destruct (x86 obj) as [c|]; simpl.
  - rewrite negb_true_iff, Z.eqb_neq. split.
    + intros Hc. split; [by exists c|congruence].
    + intros [_ Hne]. congruence.
  - split; [done|]. intros [[c Hc] _]. discriminate.
Qed.

(** ** Looking constants up *)

Lemma lookup_const_cons (e : string * Z) (table : list (string * Z)) (cname : string) :
  lookup_const (e :: table) cname
  = if decide (e.1 = cname) then Some e.2 else lookup_const table cname.
Proof.
  unfold lookup_const. simpl. case_decide; [done|].
  destruct (list_find _ table) as [[i x]|]; done.
Qed.

Lemma lookup_const_filter (table : list (string * Z)) (cname : string) (c : Z) :
  filter (λ e : string * Z, e.1 = cname) table = [(cname, c)] →
  lookup_const table cname = Some c.
Proof.
  induction table as [|e table IH]; [done|].
  rewrite filter_cons, lookup_const_cons.
  case_decide; [|done]. intros Hf. by inversion Hf.
Qed.


Lemma arch_constant_defined (all : Registry) (arch : ArchName)
    (name : string) (obj : Syscall) (c : Z) :
  NoDup (upper <$> all.*1) →
  (name, obj) ∈ all →
  getattr obj arch = Some c →
  Generated.arch_constant all arch name = Some c.
Proof.
  intros Hnd Hin Hc. apply lookup_const_filter.
  apply enum_numbers_entry with obj; [by apply sorted_names_NoDup| |done].
  by apply elem_of_sorted.
Qed.


(** ** The identity helpers *)



(** ** The name resolver *)

Lemma elem_of_for_arch (all : Registry) (arch : ArchName) (x : string * Syscall) :
  x ∈ for_arch all arch ↔ x ∈ all ∧ is_Some (getattr x.2 arch).
Proof. unfold for_arch. rewrite list_elem_of_filter. tauto. Qed.

Lemma resolved_arms (all : Registry) (arch : ArchName) :
  NoDup (upper <$> all.*1) →
  mapM (λ arm : string * string,
          c ← lookup_const (constant_table all arch) arm.1; Some (c, arm.2))
       (Generated.match_arms all arch)
  = Some ((λ x, (arch_syscall_number arch x, x.1)) <$> for_arch all arch).
Proof.
  intros Hnd. apply mapM_Some. unfold Generated.match_arms.
  apply Forall2_fmap, Forall_Forall2_diag, Forall_forall.
  intros [name obj] Hx. apply elem_of_for_arch in Hx as [Hin [c Hc]].
  simpl in *.
  pose proof (arch_constant_defined all arch name obj c Hnd Hin Hc) as Hconst.
  unfold Generated.arch_constant in Hconst. rewrite Hconst. simpl.
  unfold arch_syscall_number. simpl. by rewrite Hc.
Qed.

Lemma syscallname_arch_defined (all : Registry) (arch : ArchName)
    (name : string) (obj : Syscall) (c : Z) :
  NoDup (upper <$> all.*1) →
  (name, obj) ∈ all →
  getattr obj arch = Some c →
  (∀ name' obj', (name', obj') ∈ all → getattr obj' arch = Some c → name' = name) →
  Generated.syscallname_arch all arch c = Some name.
Proof.
  intros Hnd Hin Hc Honly. unfold Generated.syscallname_arch.
  rewrite resolved_arms by done. simpl.
  destruct (list_find_elem_of (λ arm : Z * string, arm.1 = c)
              ((λ x, (arch_syscall_number arch x, x.1)) <$> for_arch all arch)
              (c, name)) as [[i [c' literal]] Hfind].
  { apply list_elem_of_fmap. exists (name, obj). split.
    - unfold arch_syscall_number. simpl. by rewrite Hc.
    - apply elem_of_for_arch. split; [done|]. simpl. by exists c. }
  { done. }
  rewrite Hfind. apply list_find_Some in Hfind as (Hi & Hcode & _).
  simpl in Hcode. subst c'.
  apply list_elem_of_lookup_2, list_elem_of_fmap in Hi as ([name' obj'] & Heq & Hx).
  apply elem_of_for_arch in Hx as [Hin' [c' Hc']]. simpl in *.
  unfold arch_syscall_number in Heq. simpl in Heq. rewrite Hc' in Heq.
  inversion Heq; subst. f_equal. by eapply Honly.
Qed.

Lemma syscallname_arch_unknown (all : Registry) (arch : ArchName) (code : Z) :
  NoDup (upper <$> all.*1) →
  (∀ name obj, (name, obj) ∈ all → getattr obj arch ≠ Some code) →
  Generated.syscallname_arch all arch code
  = Some ("<unknown-syscall-" +:+ fmt_d code +:+ ">").
Proof.
  intros Hnd Hnone. unfold Generated.syscallname_arch.
  rewrite resolved_arms by done. simpl.
  assert (list_find (λ arm : Z * string, arm.1 = code)
            ((λ x, (arch_syscall_number arch x, x.1)) <$> for_arch all arch) = None)
    as ->; [|done].
  apply list_find_None, Forall_forall. intros [c literal] Harm.
  apply list_elem_of_fmap in Harm as ([name obj] & Heq & Hx).
  apply elem_of_for_arch in Hx as [Hin [c' Hc']]. simpl in *.
  unfold arch_syscall_number in Heq. simpl in Heq. rewrite Hc' in Heq.
  inversion Heq; subst. intros ->. by eapply Hnone.
Qed.

Lemma syscallname_arch_total (all : Registry) (arch : ArchName) (code : Z) :
  NoDup (upper <$> all.*1) →
  is_Some (Generated.syscallname_arch all arch code).
Proof.
  intros Hnd. unfold Generated.syscallname_arch.
  rewrite resolved_arms by done. simpl.
  destruct (list_find _ _) as [[i [c literal]]|]; eauto.
Qed.

Lemma write_cases (specializer : string) (l : list (string * Syscall)) (f : StringIO) :
  fold_left
    (λ (f : StringIO) '(name, _),
       write f ("    " +:+ specializer +:+ "::" +:+ upper name +:+ " => "
                +:+ dq +:+ name +:+ dq +:+ ".into()," +:+ nl))
    l f
  = f ++ ((λ x : string * Syscall,
             "    " +:+ specializer +:+ "::" +:+ upper x.1 +:+ " => "
             +:+ dq +:+ x.1 +:+ dq +:+ ".into()," +:+ nl) <$> l).
Proof.
  revert f. induction l as [|[name obj] l IH]; intros f; simpl.
  { by rewrite app_nil_r. }
  rewrite IH. unfold write. by rewrite <- app_assoc.
Qed.

Lemma write_syscallname_arch_arms (all : Registry) (arch : ArchName) :
  write_syscallname_arch all [] arch
  = take 5 (write_syscallname_arch [] [] arch)
    ++ (Generated.arm_line arch <$> Generated.match_arms all arch)
    ++ drop 5 (write_syscallname_arch [] [] arch).
Proof.
  unfold write_syscallname_arch, Generated.match_arms.
  rewrite !write_cases, <- list_fmap_compose.
  destruct arch; unfold write; simpl; rewrite <- !app_assoc; done.
Qed.

(** C6: the generated resolver answers every integer.  A code defined on the
    architecture gives the canonical name of the syscall that has it, any
    other integer, negative ones included, gives [<unknown-syscall-N>] with
    the number written out; the arms are those of the syscalls defined on
    the architecture, and of no other. *)
Theorem name_resolution (all : Registry) (arch : ArchName) :
  NoDup (upper <$> all.*1) →
  (∀ code, is_Some (Generated.syscallname_arch all arch code))
  ∧ (∀ name obj c,
       (name, obj) ∈ all → getattr obj arch = Some c →
       (∀ name' obj', (name', obj') ∈ all → getattr obj' arch = Some c → name' = name) →
       Generated.syscallname_arch all arch c = Some name)
  ∧ (∀ code,
       (∀ name obj, (name, obj) ∈ all → getattr obj arch ≠ Some code) →
       Generated.syscallname_arch all arch code
       = Some ("<unknown-syscall-" +:+ fmt_d code +:+ ">"))
  ∧ (∀ arm,
       arm ∈ Generated.match_arms all arch
       ↔ ∃ name obj, (name, obj) ∈ all ∧ is_Some (getattr obj arch)
                     ∧ arm = (upper name, name))
  ∧ write_syscallname_arch all [] arch
    = take 5 (write_syscallname_arch [] [] arch)
      ++ (Generated.arm_line arch <$> Generated.match_arms all arch)
      ++ drop 5 (write_syscallname_arch [] [] arch).
Proof.
  intros Hnd. split_and!.
  - intros code. by apply syscallname_arch_total.
  - intros name obj c Hin Hc Honly. by eapply syscallname_arch_defined.
  - intros code Hnone. by apply syscallname_arch_unknown.
  - intros arm. unfold Generated.match_arms. rewrite list_elem_of_fmap. split.
    + intros ([name obj] & -> & Hx). apply elem_of_for_arch in Hx as [Hin Hdef].
      by exists name, obj.
    + intros (name & obj & Hin & Hdef & ->). exists (name, obj). split; [done|].
      by apply elem_of_for_arch.
  - apply write_syscallname_arch_arms.
Qed.

Ltac scenario_member H :=
  repeat (apply elem_of_cons in H as [H|H]; [inversion H; subst; clear H|]);
  [..|by apply elem_of_nil in H].

Lemma scenario_names_NoDup : NoDup (upper <$> scenario.*1).
Proof. apply (bool_decide_unpack _). vm_compute. exact I. Defined.

Lemma name_resolution_witness :
  Generated.syscallname_arch scenario a_x86 3 = Some "read"
  ∧ Generated.syscallname_arch scenario a_x86 (-5) = Some "<unknown-syscall--5>"
  ∧ is_Some (Generated.syscallname_arch scenario a_x86 7).
Proof.
  destruct (name_resolution scenario a_x86 scenario_names_NoDup)
    as (Htotal & Hdefined & Hunknown & _).
  split_and!.
  - apply (Hdefined "read" (plain_syscall Regular (Some 3) (Some 0)) 3).
    + apply (bool_decide_unpack _). vm_compute. exact I.
    + reflexivity.
    + intros name' obj' Hin Hc. scenario_member Hin; simpl in Hc; congruence.
  - apply (Hunknown (-5)).
    intros name obj Hin Hc. scenario_member Hin; simpl in Hc; congruence.
  - apply Htotal.
Defined.

(** ** The scenario *)

(** C7, on the code: the x86 constants come out with [FUTEX] first. *)
Lemma scenario_x86_order :
  constant_table scenario a_x86 ≠ [("READ", 3); ("WRITE", 4); ("FUTEX", -1)].
Proof. vm_compute. discriminate. Qed.

(** C7, amended: for the registry read (x86 3, x64 0), write (x86 4, x64 1),
    futex (undefined on x86, x64 202), the x86 constants are FUTEX = -1,
    READ = 3, WRITE = 4, emitted in that order; the x64 constants are
    READ = 0, WRITE = 1, FUTEX = 202, in that order; and the x86 resolver
    answers "read" on 3, "write" on 4 and [<unknown-syscall-N>] on every
    other N, 99 among them. *)
Theorem scenario_generation :
  constant_table scenario a_x86 = [("FUTEX", -1); ("READ", 3); ("WRITE", 4)]
  ∧ write_syscall_consts scenario [] a_x86
    = [ "pub const FUTEX : i32 = -1;" +:+ nl;
        "pub const READ : i32 = 3;" +:+ nl;
        "pub const WRITE : i32 = 4;" +:+ nl;
        nl ]
  ∧ lookup_const (constant_table scenario a_x86) "READ" = Some 3
  ∧ lookup_const (constant_table scenario a_x86) "WRITE" = Some 4
  ∧ lookup_const (constant_table scenario a_x86) "FUTEX" = Some (-1)
  ∧ constant_table scenario a_x64 = [("READ", 0); ("WRITE", 1); ("FUTEX", 202)]
  ∧ write_syscall_consts scenario [] a_x64
    = [ "pub const READ : i32 = 0;" +:+ nl;
        "pub const WRITE : i32 = 1;" +:+ nl;
        "pub const FUTEX : i32 = 202;" +:+ nl;
        nl ]
  ∧ Generated.syscallname_arch scenario a_x86 3 = Some "read"
  ∧ Generated.syscallname_arch scenario a_x86 4 = Some "write"
  ∧ Generated.syscallname_arch scenario a_x86 99 = Some "<unknown-syscall-99>"
  ∧ (∀ code, code ≠ 3 → code ≠ 4 →
       Generated.syscallname_arch scenario a_x86 code
       = Some ("<unknown-syscall-" +:+ fmt_d code +:+ ">")).
Proof.
  split_and!; try (vm_compute; reflexivity).
  intros code H3 H4. apply syscallname_arch_unknown; [apply scenario_names_NoDup|].
  intros name obj Hin Hc. scenario_member Hin; simpl in Hc; congruence.
Qed.

(** ** The argument recorder *)

Lemma length_append (s t : string) :
  String.length (s +:+ t) = (String.length s + String.length t)%nat.
Proof. induction s as [|a s IH]; simpl; [done|]. by rewrite IH. Qed.



Lemma write_recorders (obj : Syscall) (args : list Z) (f : StringIO) :
  fold_left
    (λ (f : StringIO) (arg : Z),
       match getattr_arg obj arg with
       | Some (AttrStr tag) =>
           write f ("    syscall_state.reg_parameter<" +:+ tag +:+ ">("
                    +:+ fmt_d arg +:+ ");" +:+ nl)
       | _ => f
       end)
    args f
  = f ++ omap (registration obj) args.
Proof.
  revert f. induction args as [|arg args IH]; intros f; simpl.
  { by rewrite app_nil_r. }
  rewrite IH. unfold registration at 2.
  destruct (getattr_arg obj arg) as [[tag|]|]; try done.
  unfold write, reg_line. by rewrite <- app_assoc.
Qed.

Lemma write_syscall_record_cases_blocks (all : Registry) (f : StringIO) :
  write_syscall_record_cases all f
  = f ++ mjoin ((λ x : string * Syscall,
                   case_line x.1 :: omap (registration x.2) [1; 2; 3; 4; 5] ++ [stop_line])
                  <$> filter (λ x, kind x.2 = Regular) all).
Proof.
  unfold write_syscall_record_cases. revert f.
  induction all as [|[name obj] all IH]; intros f.
  { simpl. by rewrite app_nil_r. }
  rewrite filter_cons. cbn [fold_left]. rewrite IH. cbn [fst snd].
  destruct (kind obj).
  - rewrite decide_True by done. rewrite fmap_cons.
    change (range 1 6) with [1; 2; 3; 4; 5].
    rewrite write_recorders. unfold write, case_line, stop_line.
    cbn [mjoin list_join fst snd]. rewrite <- !app_assoc.
    f_equal. cbn [app]. f_equal. by rewrite <- app_assoc.
  - by rewrite decide_False.
Qed.





Lemma filter_none {A : Type} (P : A → Prop) `{∀ x, Decision (P x)} (l : list A) :
  Forall (λ x, ¬ P x) l → filter P l = [].
Proof.
  induction 1 as [|x l Hx Hl IH]; [done|].
  rewrite filter_cons. by case_decide.
Qed.





(** ** The driver *)

(** C9: [main] compares the generated text with the content of the target
    (the empty text when the target does not exist) and writes the target
    only when the two differ; after a run the target holds the generated
    text, and a second run over the same registry generates the same text
    and writes nothing. *)
Theorem output_writer_idempotent (all : Registry) (assembly_templates_generate : StringIO → StringIO)
    (filename : string) (fs : FileSystem) (generator : StringIO → StringIO) :
  generators_for all assembly_templates_generate (splitext (basename filename)).1
  = Some generator →
  let after := getvalue (generator []) in
  let before := default EmptyString (files fs !! filename) in
  main all assembly_templates_generate [filename] fs
  = Some (if decide (before = after) then fs else write_file fs filename after)
  ∧ ∃ fs1,
      main all assembly_templates_generate [filename] fs = Some fs1
      ∧ default EmptyString (files fs1 !! filename) = after
      ∧ main all assembly_templates_generate [filename] fs1 = Some fs1.
Proof.
  intros Hgen after before.
  assert (∀ fs' : FileSystem,
            main all assembly_templates_generate [filename] fs'
            = Some (if decide (default EmptyString (files fs' !! filename) = after)
                    then fs' else write_file fs' filename after)) as Hmain.
  { intros fs'. unfold main. simpl.
    destruct (splitext (basename filename)) as [base extension]. simpl in Hgen.
    rewrite Hgen. simpl. fold after.
    destruct (files fs' !! filename) as [content|]; simpl;
      repeat case_decide; done. }
  split; [apply Hmain|].
  rewrite Hmain. fold before.
  destruct (decide (before = after)) as [Heq|Hne].
  - exists fs. split; [done|]. split; [done|].
    rewrite Hmain. fold before. by rewrite decide_True.
  - exists (write_file fs filename after). split; [done|].
    assert (default EmptyString (files (write_file fs filename after) !! filename) = after)
      as Hread.
    { simpl. by rewrite lookup_insert_eq. }
    split; [done|]. rewrite Hmain. by rewrite decide_True.
Qed.

Lemma output_writer_idempotent_witness :
  let all := scenario in
  let filename := "gen/syscall_consts_x86_generated.rs" in
  let fs := mkFileSystem ∅ [] in
  let after := getvalue (write_syscall_consts scenario [] a_x86) in
  let before := default EmptyString (files fs !! filename) in
  main all (λ f, f) [filename] fs
  = Some (if decide (before = after) then fs else write_file fs filename after)
  ∧ ∃ fs1,
      main all (λ f, f) [filename] fs = Some fs1
      ∧ default EmptyString (files fs1 !! filename) = after
      ∧ main all (λ f, f) [filename] fs1 = Some fs1.
Proof.
  apply (output_writer_idempotent scenario (λ f, f) "gen/syscall_consts_x86_generated.rs"
           (mkFileSystem ∅ []) (λ f, write_syscall_consts scenario f a_x86)).
  reflexivity.
Defined.

(** * Further properties of the generators *)

(** ** One constant per syscall *)

(** Every syscall of the registry, defined on the architecture or not, gets
    one constant: the constant names are the uppercased registry names, up
    to the emission order, and the writer issues one line per syscall and a
    final blank line. *)
Theorem constant_table_names (all : Registry) (arch : ArchName) :
  (constant_table all arch).*1 ≡ₚ upper <$> all.*1
  ∧ length (write_syscall_consts all [] arch) = S (length all)
  ∧ (NoDup (upper <$> all.*1) → NoDup (constant_table all arch).*1).
Proof.
  assert ((constant_table all arch).*1 ≡ₚ upper <$> all.*1) as Hperm.
  { unfold constant_table. rewrite enum_numbers_names.
    by rewrite (sorted_perm (arch_syscall_number arch) all). }
  split_and!.
  - done.
  - rewrite write_syscall_consts_table. simpl.
    rewrite length_app, length_fmap. simpl.
    rewrite <- (length_fmap fst), Hperm, !length_fmap. lia.
  - intros Hnd. by rewrite Hperm.
Qed.

Lemma constant_table_names_witness : NoDup (constant_table scenario a_x86).*1.
Proof.
  destruct (constant_table_names scenario a_x86) as (_ & _ & Hnd).
  apply Hnd. apply (bool_decide_unpack _). vm_compute. exact I.
Defined.

(** ** Syscalls undefined on an architecture *)







(** ** The layout of a constant table *)

Section table_layout.
Variable arch : ArchName.

Local Abbreviation key := (arch_syscall_number arch).

Lemma key_of_undefined (x : string * Syscall) : undefined_on arch x → key x = -1.
Proof.
  unfold undefined_on, arch_syscall_number. by intros ->.
Qed.

Lemma key_of_defined (x : string * Syscall) (c : Z) : getattr x.2 arch = Some c → key x = c.
Proof.
  unfold arch_syscall_number. by intros ->.
Qed.

Lemma same_key_sorted {A : Type} (f : A → Z) (k : Z) (l : list A) :
  Forall (λ x, f x = k) l → StronglySorted (key_le f) l.
Proof.
  induction 1 as [|x l Hx Hl IH]; constructor; [done|].
  eapply Forall_impl; [exact Hl|]. unfold key_le. intros y Hy. lia.
Qed.

Lemma filter_key_undefined (k : Z) (l : list (string * Syscall)) :
  k ≠ -1 → filter (λ a, key a = k) (filter (undefined_on arch) l) = [].
Proof.
  intros Hk. apply filter_none, Forall_forall. intros x Hx.
  apply list_elem_of_filter in Hx as [Hu _].
  apply key_of_undefined in Hu. lia.
Qed.

Lemma filter_key_split (k : Z) (l : list (string * Syscall)) :
  codes_not_negative arch l →
  filter (λ a, key a = k) (filter (undefined_on arch) l)
  ++ filter (λ a, key a = k) (for_arch l arch)
  = filter (λ a, key a = k) l.
Proof.
  unfold for_arch.
  induction l as [|[name obj] l IH]; intros Hinv; [done|].
  assert (codes_not_negative arch l) as Hl.
  { intros n o c Hin Hc. apply (Hinv n o c); [by right|done]. }
  specialize (IH Hl).
  destruct (getattr obj arch) as [c|] eqn:Hc.
  - assert (0 ≤ c) as Hpos by (apply (Hinv name obj c); [constructor|done]).
    rewrite (filter_cons_False (undefined_on arch))
      by (unfold undefined_on; simpl; congruence).
    rewrite (filter_cons_True (λ x : string * Syscall, is_Some (getattr x.2 arch)))
      by (simpl; eauto).
    destruct (decide (c = k)) as [->|Hne].
    + rewrite filter_key_undefined by lia.
      rewrite !(filter_cons_True (λ a, key a = k)) by (by apply key_of_defined).
      rewrite <- IH, filter_key_undefined by lia. done.
    + rewrite !(filter_cons_False (λ a, key a = k))
        by (rewrite (key_of_defined (name, obj) c Hc); done).
      done.
  - rewrite (filter_cons_True (undefined_on arch)) by done.
    rewrite (filter_cons_False (λ x : string * Syscall, is_Some (getattr x.2 arch)))
      by (simpl; rewrite Hc; by intros [? ?]).
    destruct (decide (k = -1)) as [->|Hne].
    + rewrite !(filter_cons_True (λ a, key a = -1)) by (by apply key_of_undefined).
      by rewrite <- IH.
    + rewrite !(filter_cons_False (λ a, key a = k))
        by (rewrite (key_of_undefined (name, obj) Hc); done).
      done.
Qed.

Lemma sorted_layout (all : Registry) :
  codes_not_negative arch all →
  sorted key all = filter (undefined_on arch) all ++ sorted key (for_arch all arch).
Proof.
  intros Hinv. symmetry. apply (sorted_unique key).
  - apply StronglySorted_app_2.
    + intros x1 x2 Hx1 Hx2.
      apply list_elem_of_filter in Hx1 as [Hu _]. apply key_of_undefined in Hu.
      rewrite (sorted_perm key) in Hx2.
      apply elem_of_for_arch in Hx2 as [Hin [c Hc]].
      destruct x2 as [name obj]. simpl in Hc.
      pose proof (Hinv name obj c Hin Hc) as Hpos.
      unfold key_le. rewrite (key_of_defined (name, obj) c Hc). lia.
    + apply (same_key_sorted key (-1)), Forall_forall. intros x Hx.
      apply list_elem_of_filter in Hx as [Hu _]. by apply key_of_undefined.
    + apply sorted_sorted.
  - apply sorted_sorted.
  - intros k. rewrite filter_app, !sorted_stable. by apply filter_key_split.
Qed.

Lemma enum_numbers_app_undefined (u : Z) (l1 l2 : list (string * Syscall)) :
  Forall (undefined_on arch) l1 →
  enum_numbers arch u (l1 ++ l2)
  = imap (λ (i : nat) (x : string * Syscall), (upper x.1, u - Z.of_nat i)) l1
    ++ enum_numbers arch (u - Z.of_nat (length l1)) l2.
Proof.
  intros Hl1. revert u. induction Hl1 as [|[name obj] l1 Hx Hl1 IH]; intros u.
  { simpl. f_equal. lia. }
  unfold undefined_on in Hx. simpl in Hx.
  rewrite <- app_comm_cons. cbn [enum_numbers]. rewrite Hx.
  rewrite imap_cons, IH. simpl. f_equal; [f_equal; lia|]. f_equal.
  - apply imap_ext. intros i x _. simpl. f_equal. lia.
  - f_equal. lia.
Qed.

Lemma enum_numbers_defined (u : Z) (l : list (string * Syscall)) :
  Forall (λ x, is_Some (getattr x.2 arch)) l →
  enum_numbers arch u l = (λ x, (upper x.1, key x)) <$> l.
Proof.
  induction 1 as [|[name obj] l [c Hc] Hl IH]; [done|].
  simpl in Hc. cbn [enum_numbers]. rewrite Hc, IH, fmap_cons.
  by rewrite (key_of_defined (name, obj) c Hc).
Qed.

Lemma constant_table_split (all : Registry) :
  codes_not_negative arch all →
  constant_table all arch
  = imap (λ (i : nat) (x : string * Syscall), (upper x.1, - Z.of_nat (S i)))
         (filter (undefined_on arch) all)
    ++ ((λ x, (upper x.1, arch_syscall_number arch x))
          <$> sorted (arch_syscall_number arch) (for_arch all arch)).
Proof.
  intros Hinv. unfold constant_table.
  rewrite (sorted_layout all Hinv), enum_numbers_app_undefined.
  - f_equal.
    + apply imap_ext. intros i x _. simpl. f_equal. lia.
    + apply enum_numbers_defined, Forall_forall. intros x Hx.
      rewrite (sorted_perm key) in Hx. by apply elem_of_for_arch in Hx as [_ ?].
  - apply Forall_forall. intros x Hx. by apply list_elem_of_filter in Hx as [? _].
Qed.

(** When no defined code is negative, the syscalls undefined on the
    architecture come first, in registry order, the k-th of them with the
    sentinel -k; the defined syscalls follow in increasing order of code,
    each with its code; the writer emits their lines in that order. *)
Theorem constant_table_layout (all : Registry) :
  codes_not_negative arch all →
  constant_table all arch
  = imap (λ (i : nat) (x : string * Syscall), (upper x.1, - Z.of_nat (S i)))
         (filter (undefined_on arch) all)
    ++ ((λ x, (upper x.1, arch_syscall_number arch x))
          <$> sorted (arch_syscall_number arch) (for_arch all arch))
  ∧ write_syscall_consts all [] arch
    = imap (λ (i : nat) (x : string * Syscall), const_line (upper x.1, - Z.of_nat (S i)))
           (filter (undefined_on arch) all)
      ++ ((λ x, const_line (upper x.1, arch_syscall_number arch x))
            <$> sorted (arch_syscall_number arch) (for_arch all arch))
      ++ [nl].
Proof.
  intros Hinv. split; [by apply constant_table_split|].
  rewrite write_syscall_consts_table, (constant_table_split all Hinv). simpl.
  rewrite fmap_app, fmap_imap, <- list_fmap_compose, <- app_assoc. done.
Qed.

(** When moreover no two syscalls have the same code on the architecture,
    no two constants of its table have the same value. *)
Theorem constant_values_distinct (all : Registry) :
  codes_not_negative arch all →
  NoDup (arch_syscall_number arch <$> for_arch all arch) →
  NoDup (constant_table all arch).*2.
Proof.
  intros Hinv Hcodes. rewrite (constant_table_split all Hinv), fmap_app.
  apply NoDup_app. split_and!.
  - rewrite fmap_imap.
    rewrite (imap_ext _ (λ (i : nat) (_ : string * Syscall), - Z.of_nat (S i)))
      by done.
    rewrite (imap_seq_0 _ (λ i : nat, - Z.of_nat (S i))).
    apply NoDup_fmap_2; [|apply NoDup_seq]. intros i j Hij. lia.
  - intros v Hneg Hcode.
    apply list_elem_of_fmap in Hneg as ([n v'] & -> & Hneg).
    apply elem_of_lookup_imap in Hneg as (i & x & Heq & _).
    inversion Heq; subst. simpl in Hcode.
    rewrite <- list_fmap_compose in Hcode.
    apply list_elem_of_fmap in Hcode as ([name obj] & Hv & Hx). simpl in Hv.
    apply elem_of_sorted in Hx.
    apply elem_of_for_arch in Hx as [Hin [c Hc]]. simpl in Hc.
    pose proof (Hinv name obj c Hin Hc) as Hpos.
    pose proof (key_of_defined (name, obj) c Hc) as Hkey.
    rewrite Hkey in Hv. lia.
  - rewrite <- list_fmap_compose.
    rewrite (sorted_perm (arch_syscall_number arch)). exact Hcodes.
Qed.
End table_layout.

Lemma scenario_codes_not_negative (arch : ArchName) : codes_not_negative arch scenario.
Proof.
  intros name obj c Hin Hc.
  scenario_member Hin; destruct arch; simpl in Hc; inversion Hc; lia.
Qed.

Lemma constant_table_layout_witness :
  constant_table scenario a_x86
  = imap (λ (i : nat) (x : string * Syscall), (upper x.1, - Z.of_nat (S i)))
         (filter (undefined_on a_x86) scenario)
    ++ ((λ x, (upper x.1, arch_syscall_number a_x86 x))
          <$> sorted (arch_syscall_number a_x86) (for_arch scenario a_x86))
  ∧ write_syscall_consts scenario [] a_x86
    = imap (λ (i : nat) (x : string * Syscall), const_line (upper x.1, - Z.of_nat (S i)))
           (filter (undefined_on a_x86) scenario)
      ++ ((λ x, const_line (upper x.1, arch_syscall_number a_x86 x))
            <$> sorted (arch_syscall_number a_x86) (for_arch scenario a_x86))
      ++ [nl].
Proof.
  apply (constant_table_layout a_x86 scenario).
  apply scenario_codes_not_negative.
Defined.

Lemma constant_values_distinct_witness : NoDup (constant_table scenario a_x64).*2.
Proof.
  apply (constant_values_distinct a_x64 scenario).
  - apply scenario_codes_not_negative.
  - apply (bool_decide_unpack _). vm_compute. exact I.
Defined.

(** ** What the order of the registry changes *)

(** The constant table depends on the order of the registry only through
    the relative order of the syscalls of equal sort key: two enumerations
    that agree on it for every key give the same table and the same text. *)
Theorem constant_table_registry_order (all all' : Registry) (arch : ArchName) (f : StringIO) :
  (∀ k, filter (λ x, arch_syscall_number arch x = k) all'
        = filter (λ x, arch_syscall_number arch x = k) all) →
  constant_table all' arch = constant_table all arch
  ∧ write_syscall_consts all' f arch = write_syscall_consts all f arch
  ∧ write_syscall_consts_for_tests all' f arch = write_syscall_consts_for_tests all f arch.
Proof.
  intros Hsame.
  assert (sorted (arch_syscall_number arch) all' = sorted (arch_syscall_number arch) all)
    as Hsorted.
  { apply (sorted_unique (arch_syscall_number arch)); [apply sorted_sorted..|].
    intros k. by rewrite !sorted_stable. }
  assert (constant_table all' arch = constant_table all arch) as Htable.
  { unfold constant_table. by rewrite Hsorted. }
  split; [done|].
  by rewrite !write_syscall_consts_table, !write_syscall_consts_for_tests_table, Htable.
Qed.

Lemma constant_table_registry_order_witness :
  constant_table (reverse scenario) a_x86 = constant_table scenario a_x86
  ∧ write_syscall_consts (reverse scenario) [] a_x86 = write_syscall_consts scenario [] a_x86
  ∧ write_syscall_consts_for_tests (reverse scenario) [] a_x86
    = write_syscall_consts_for_tests scenario [] a_x86.
Proof.
  apply (constant_table_registry_order scenario (reverse scenario) a_x86 []).
  intros k. change (reverse scenario) with
    [ ("futex", plain_syscall Regular None (Some 202));
      ("write", plain_syscall Regular (Some 4) (Some 1));
      ("read", plain_syscall Regular (Some 3) (Some 0)) ].
  unfold scenario. rewrite !filter_cons, !filter_nil.
  cbv [arch_syscall_number getattr plain_syscall x86 snd].
  repeat case_decide; first [reflexivity | lia].
Defined.

(** ** The name resolver never invents a name *)

(** A resolver answer other than the fallback text is the canonical name of
    a registry syscall whose code on the architecture is the number asked
    about; the sentinel of an undefined syscall never resolves to its
    name. *)
Theorem name_resolution_sound (all : Registry) (arch : ArchName) (code : Z) (answer : string) :
  NoDup (upper <$> all.*1) →
  Generated.syscallname_arch all arch code = Some answer →
  answer = "<unknown-syscall-" +:+ fmt_d code +:+ ">"
  ∨ ∃ obj, (answer, obj) ∈ all ∧ getattr obj arch = Some code.
Proof.
  intros Hnd. unfold Generated.syscallname_arch.
  rewrite resolved_arms by done. simpl.
  destruct (list_find _ _) as [[i [c literal]]|] eqn:Hfind.
  - intros Heq. inversion Heq; subst. right.
    apply list_find_Some in Hfind as (Hi & Hcode & _). simpl in Hcode. subst c.
    apply list_elem_of_lookup_2, list_elem_of_fmap in Hi as ([name obj] & Heq' & Hx).
    apply elem_of_for_arch in Hx as [Hin [c Hc]]. simpl in *.
    unfold arch_syscall_number in Heq'. simpl in Heq'. rewrite Hc in Heq'.
    inversion Heq'; subst. by exists obj.
  - intros Heq. inversion Heq. by left.
Qed.

Lemma name_resolution_sound_witness :
  "<unknown-syscall--1>" = "<unknown-syscall-" +:+ fmt_d (-1) +:+ ">"
  ∨ ∃ obj, ("<unknown-syscall--1>", obj) ∈ scenario ∧ getattr obj a_x86 = Some (-1).
Proof.
  apply (name_resolution_sound scenario a_x86 (-1) "<unknown-syscall--1>").
  - apply scenario_names_NoDup.
  - vm_compute. reflexivity.
Defined.

(** ** The helper functions *)

Lemma write_syscall_helper_functions_chunks (all : Registry) (f : StringIO) :
  write_syscall_helper_functions all f
  = f ++ mjoin ((λ name, [has_syscall name; is_syscall name; syscall_number name])
                  <$> all.*1).
Proof.
  unfold write_syscall_helper_functions. revert f.
  induction all as [|[name obj] all IH]; intros f.
  { simpl. by rewrite app_nil_r. }
  cbn [fold_left]. rewrite IH. unfold write. rewrite !fmap_cons.
  change (mjoin (?block :: ?blocks)) with (block ++ mjoin blocks).
  cbn [fst]. by rewrite <- !app_assoc.
Qed.

(** The three helpers are written for every syscall of the registry, in
    registry order, whatever its kind and whether or not it is defined on
    either architecture: the text depends on the names only. *)
Theorem helper_functions_per_syscall (all all' : Registry) :
  write_syscall_helper_functions all []
  = mjoin ((λ name, [has_syscall name; is_syscall name; syscall_number name]) <$> all.*1)
  ∧ length (write_syscall_helper_functions all []) = (3 * length all)%nat
  ∧ (all.*1 = all'.*1 →
     write_syscall_helper_functions all [] = write_syscall_helper_functions all' []).
Proof.
  split_and!.
  - apply (write_syscall_helper_functions_chunks all []).
  - rewrite write_syscall_helper_functions_chunks. simpl.
    induction all as [|x all IH]; [done|].
    rewrite !fmap_cons.
    change (mjoin (?block :: ?blocks)) with (block ++ mjoin blocks).
    rewrite length_app, IH. simpl. lia.
  - intros Hnames. by rewrite !write_syscall_helper_functions_chunks, Hnames.
Qed.

Lemma helper_functions_per_syscall_witness :
  write_syscall_helper_functions scenario []
  = write_syscall_helper_functions
      [ ("read", plain_syscall Irregular None None);
        ("write", plain_syscall Irregular None None);
        ("futex", plain_syscall Irregular (Some 240) None) ] [].
Proof.
  destruct (helper_functions_per_syscall scenario
              [ ("read", plain_syscall Irregular None None);
                ("write", plain_syscall Irregular None None);
                ("futex", plain_syscall Irregular (Some 240) None) ])
    as (_ & _ & Hnames).
  apply Hnames. reflexivity.
Defined.

(** ** Generators only append *)

Lemma write_syscallname_arch_append (all : Registry) (f : StringIO) (arch : ArchName) :
  write_syscallname_arch all f arch = f ++ write_syscallname_arch all [] arch.
Proof.
  unfold write_syscallname_arch. rewrite !write_cases.
  unfold write. by rewrite <- !app_assoc.
Qed.

(** A generator selected by [generators_for] leaves what the stream already
    holds in place and adds its chunks after it, provided the assembly
    template renderer does. *)
Theorem generators_append (all : Registry) (assembly_templates_generate : StringIO → StringIO)
    (base : string) (generator : StringIO → StringIO) (f : StringIO) :
  (∀ f, assembly_templates_generate f = f ++ assembly_templates_generate []) →
  generators_for all assembly_templates_generate base = Some generator →
  generator f = f ++ generator [].
Proof.
  intros Hasm. unfold generators_for.
  repeat case_decide; intros Hgen; inversion Hgen; subst.
  - apply Hasm.
  - by rewrite !write_check_syscall_numbers_lines.
  - by rewrite !write_syscall_consts_table.
  - by rewrite !write_syscall_consts_table.
  - by rewrite !write_syscall_consts_for_tests_table.
  - by rewrite !write_syscall_consts_for_tests_table.
  - apply write_syscallname_arch_append.
  - apply write_syscallname_arch_append.
  - by rewrite !write_syscall_record_cases_blocks.
  - by rewrite !write_syscall_helper_functions_chunks.
Qed.

Lemma generators_append_witness :
  write_syscall_record_cases scenario ["// header"]
  = ["// header"] ++ write_syscall_record_cases scenario [].
Proof.
  apply (generators_append scenario (λ f, f ++ ["asm"]) "SyscallRecordCase"
           (write_syscall_record_cases scenario) ["// header"]).
  - intros f. reflexivity.
  - reflexivity.
Defined.

(** ** The static assertions name x86 syscalls only *)

Lemma append_inj_length (s1 s2 t1 t2 : string) :
  String.length s1 = String.length s2 → s1 +:+ t1 = s2 +:+ t2 → s1 = s2 ∧ t1 = t2.
Proof.
  revert s2. induction s1 as [|a s1 IH]; intros [|b s2] Hlen Heq;
    simpl in Hlen; try discriminate.
  - done.
  - simpl in Heq. inversion Heq; subst.
    destruct (IH s2) as [-> ->]; [lia|done|done].
Qed.

Lemma assert_line_inj (name name' : string) :
  assert_line name = assert_line name' → name = name'.
Proof.
  unfold assert_line. intros Heq.
  assert (String.length name = String.length name') as Hlen.
  { apply (f_equal String.length) in Heq.
    rewrite !length_append in Heq. simpl in Heq. lia. }
  apply String.app_inj in Heq.
  by apply append_inj_length in Heq as [-> _].
Qed.

(** An assertion is written for a name exactly when the registry has a
    syscall of that name whose x86 code is defined and is not 0; the kind
    of the syscall and its x64 code play no part. *)
Theorem static_assertions_sound (all : Registry) (name : string) :
  assert_line name ∈ write_check_syscall_numbers all []
  ↔ ∃ obj c, (name, obj) ∈ all ∧ x86 obj = Some c ∧ c ≠ 0.
Proof.
  rewrite write_check_syscall_numbers_lines. simpl.
  rewrite list_elem_of_fmap. split.
  - intros (name' & Heq & Hin). apply assert_line_inj in Heq as <-.
    apply list_elem_of_fmap in Hin as ([name' obj] & -> & Hin).
    apply list_elem_of_filter in Hin as [Htruthy Hin]. simpl in *.
    destruct (x86 obj) as [c|] eqn:Hc; [|done]. simpl in Htruthy.
    exists obj, c. split_and!; [done..|].
    apply negb_true_iff, Z.eqb_neq in Htruthy. done.
  - intros (obj & c & Hin & Hc & Hne). exists name. split; [done|].
    apply list_elem_of_fmap. exists (name, obj). split; [done|].
    apply list_elem_of_filter. split; [|done]. simpl. rewrite Hc. simpl.
    by apply negb_true_iff, Z.eqb_neq.
Qed.

(** ** The driver leaves everything but its target alone *)

(** A run of [main] that returns reads only its first argument, leaves the
    content of every other path as it was, and opens at most the target for
    writing. *)
Theorem main_touches_only_target (all : Registry)
    (assembly_templates_generate : StringIO → StringIO)
    (filename : string) (rest : list string) (fs fs' : FileSystem) :
  main all assembly_templates_generate (filename :: rest) fs = Some fs' →
  main all assembly_templates_generate [filename] fs = Some fs'
  ∧ (∀ path, path ≠ filename → files fs' !! path = files fs !! path)
  ∧ (opened_for_writing fs' = opened_for_writing fs
     ∨ opened_for_writing fs' = opened_for_writing fs ++ [filename]).
Proof.
  intros Hmain. split; [exact Hmain|].
  unfold main in Hmain. simpl in Hmain.
  destruct (splitext (basename filename)) as [base extension].
  destruct (generators_for all assembly_templates_generate base) as [generator|];
    [|done].
  simpl in Hmain. case_decide; inversion Hmain; subst; simpl.
  - split; [|by right]. intros path Hne. by rewrite lookup_insert_ne.
  - split; [done|by left].
Qed.

Lemma main_touches_only_target_witness :
  let fs := mkFileSystem {[ "other.txt" := "kept" ]} [] in
  let fs' :=
    write_file fs "SyscallRecordCase.inc" (getvalue (write_syscall_record_cases scenario [])) in
  main scenario (λ f, f) ["SyscallRecordCase.inc"] fs = Some fs'
  ∧ (∀ path, path ≠ "SyscallRecordCase.inc" → files fs' !! path = files fs !! path)
  ∧ (opened_for_writing fs' = opened_for_writing fs
     ∨ opened_for_writing fs' = opened_for_writing fs ++ ["SyscallRecordCase.inc"]).
Proof.
  apply (main_touches_only_target scenario (λ f, f) "SyscallRecordCase.inc" ["ignored"]).
  vm_compute. reflexivity.
Defined.

(** [main] raises exactly when it is given no argument, or when the base
    name of its first argument is none of the ten generator names; the
    names are matched exactly, letter case included. *)
Theorem main_fails_exactly_when (all : Registry)
    (assembly_templates_generate : StringIO → StringIO)
    (argv : list string) (fs : FileSystem) :
  main all assembly_templates_generate argv fs = None
  ↔ argv = []
    ∨ ∃ filename rest,
        argv = filename :: rest
        ∧ (splitext (basename filename)).1
          ∉ [ "AssemblyTemplates"; "CheckSyscallNumbers";
              "syscall_consts_x86_generated"; "syscall_consts_x64_generated";
              "syscall_consts_for_tests_x86_generated";
              "syscall_consts_for_tests_x64_generated";
              "syscall_name_arch_x86_generated"; "syscall_name_arch_x64_generated";
              "SyscallRecordCase"; "SyscallHelperFunctions" ].
Proof.
  assert (∀ base,
            generators_for all assembly_templates_generate base = None
            ↔ base ∉ [ "AssemblyTemplates"; "CheckSyscallNumbers";
                       "syscall_consts_x86_generated"; "syscall_consts_x64_generated";
                       "syscall_consts_for_tests_x86_generated";
                       "syscall_consts_for_tests_x64_generated";
                       "syscall_name_arch_x86_generated";
                       "syscall_name_arch_x64_generated";
                       "SyscallRecordCase"; "SyscallHelperFunctions" ]) as Hnames.
  { intros base. unfold generators_for.
    repeat case_decide; subst; (split; [try done|]).
    all: try (intros Hnot; exfalso; apply Hnot; repeat constructor; fail).
    - intros _ Hin.
      repeat (apply elem_of_cons in Hin as [->|Hin]; [done|]).
      by apply elem_of_nil in Hin.
    - done. }
  destruct argv as [|filename rest].
  { split; [by left|done]. }
  unfold main. simpl.
  destruct (splitext (basename filename)) as [base extension] eqn:Hbase.
  split.
  - intros Hmain. right. exists filename, rest. split; [done|].
    rewrite Hbase. simpl. apply Hnames.
    destruct (generators_for all assembly_templates_generate base); [|done].
    simpl in Hmain. by case_decide.
  - intros [?|(filename' & rest' & Heq & Hnot)]; [done|].
    inversion Heq; subst. rewrite Hbase in Hnot. simpl in Hnot.
    apply Hnames in Hnot. by rewrite Hnot.
Qed.

(** ** The generator is chosen by the base name of the target *)

Lemma list_ascii_of_append (s t : string) :
  list_ascii_of_string (s +:+ t) = list_ascii_of_string s ++ list_ascii_of_string t.
Proof. induction s as [|a s IH]; simpl; [done|]. by rewrite IH. Qed.

Lemma rsplit_none (c : ascii) (s : string) :
  c ∉ list_ascii_of_string s → rsplit c s = None.
Proof.
  induction s as [|a s IH]; simpl; [done|].
  intros Hnot. apply not_elem_of_cons in Hnot as [Hne Hnot].
  rewrite IH by done. by rewrite decide_False.
Qed.

Lemma rsplit_last (c : ascii) (l r : string) :
  c ∉ list_ascii_of_string r →
  rsplit c (l +:+ String c r) = Some (l, String c r).
Proof.
  intros Hnot. induction l as [|a l IH]; simpl.
  - rewrite rsplit_none by done. by rewrite decide_True.
  - by rewrite IH.
Qed.

Lemma splitext_base_ext (base ext : string) :
  base ≠ EmptyString →
  "/"%char ∉ list_ascii_of_string base → "."%char ∉ list_ascii_of_string base →
  "/"%char ∉ list_ascii_of_string ext → "."%char ∉ list_ascii_of_string ext →
  splitext (base +:+ String "." ext) = (base, String "." ext).
Proof.
  intros Hne Hslash Hdot Hslash' Hdot'. unfold splitext.
  rewrite rsplit_none.
  2:{ rewrite list_ascii_of_append. simpl. rewrite elem_of_app, elem_of_cons.
      intros [?|[?|?]]; done. }
  destruct base as [|a base]; [done|].
  simpl in Hdot. apply not_elem_of_cons in Hdot as [Ha Hdot].
  change (String a base +:+ String "." ext) with (String a (base +:+ String "." ext)).
  cbn [span_char]. rewrite decide_False by done.
  change (String a (base +:+ String "." ext)) with (String a base +:+ String "." ext).
  by rewrite rsplit_last.
Qed.

(** For a target [base.ext], alone or under any directory, [main] looks the
    generator up under [base]: neither the directory nor the extension
    takes part in the choice. *)
Theorem main_selects_by_base_name (all : Registry)
    (assembly_templates_generate : StringIO → StringIO)
    (dir base ext filename : string) (fs : FileSystem) :
  base ≠ EmptyString →
  "/"%char ∉ list_ascii_of_string base → "."%char ∉ list_ascii_of_string base →
  "/"%char ∉ list_ascii_of_string ext → "."%char ∉ list_ascii_of_string ext →
  filename = base +:+ String "." ext ∨ filename = dir +:+ String "/" (base +:+ String "." ext) →
  main all assembly_templates_generate [filename] fs
  = match generators_for all assembly_templates_generate base with
    | None => None
    | Some generator =>
        let after := getvalue (generator []) in
        Some (if decide (default EmptyString (files fs !! filename) = after)
              then fs else write_file fs filename after)
    end.
Proof.
  intros Hne Hslash Hdot Hslash' Hdot' Hname.
  assert ("/"%char ∉ list_ascii_of_string (base +:+ String "." ext)) as Htail.
  { rewrite list_ascii_of_append. simpl. rewrite elem_of_app, elem_of_cons.
    intros [?|[?|?]]; done. }
  assert (basename filename = base +:+ String "." ext) as Hbase.
  { unfold basename. destruct Hname as [->| ->].
    - by rewrite rsplit_none.
    - by rewrite rsplit_last. }
  unfold main. simpl. rewrite Hbase, splitext_base_ext by done.
  destruct (generators_for all assembly_templates_generate base) as [generator|];
    [|done].
  simpl. destruct (files fs !! filename) as [content|]; simpl;
    repeat case_decide; done.
Qed.

Lemma main_selects_by_base_name_witness :
  main scenario (λ f, f) ["/build/gen.d/SyscallRecordCase.generated"] (mkFileSystem ∅ [])
  = match generators_for scenario (λ f, f) "SyscallRecordCase" with
    | None => None
    | Some generator =>
        let after := getvalue (generator []) in
        Some (if decide (default EmptyString
                           (files (mkFileSystem ∅ [])
                              !! "/build/gen.d/SyscallRecordCase.generated") = after)
              then mkFileSystem ∅ []
              else write_file (mkFileSystem ∅ [])
                     "/build/gen.d/SyscallRecordCase.generated" after)
    end.
Proof.
  apply (main_selects_by_base_name scenario (λ f, f) "/build/gen.d" "SyscallRecordCase"
           "generated").
  - discriminate.
  - apply (bool_decide_unpack _). vm_compute. exact I.
  - apply (bool_decide_unpack _). vm_compute. exact I.
  - apply (bool_decide_unpack _). vm_compute. exact I.
  - apply (bool_decide_unpack _). vm_compute. exact I.
  - right. reflexivity.
Defined.

(** ** Targets that do not exist yet *)






(** ** Generators that write nothing *)

Lemma filter_empty {A : Type} (P : A → Prop) `{∀ x, Decision (P x)} (l : list A) :
  filter P l = [] ↔ Forall (λ x, ¬ P x) l.
Proof.
  split; [|apply filter_none].
  intros Hf. apply Forall_forall. intros x Hx HP.
  by eapply filter_nil_not_elem_of.
Qed.

(** The recorder writes nothing exactly when the registry has no Regular
    syscall, the static assertions are empty exactly when no syscall has a
    nonzero x86 code, and the helper functions are empty for the empty
    registry only; [main] then leaves a target that does not exist
    missing. *)
Theorem generators_writing_nothing (all : Registry)
    (assembly_templates_generate : StringIO → StringIO)
    (base filename : string) (generator : StringIO → StringIO) (fs : FileSystem) :
  (write_syscall_record_cases all [] = [] ↔ Forall (λ x, kind x.2 ≠ Regular) all)
  ∧ (write_check_syscall_numbers all [] = []
     ↔ Forall (λ x, x86 x.2 = None ∨ x86 x.2 = Some 0) all)
  ∧ (write_syscall_helper_functions all [] = [] ↔ all = [])
  ∧ ((splitext (basename filename)).1 = base →
     generators_for all assembly_templates_generate base = Some generator →
     generator [] = [] →
     files fs !! filename = None →
     main all assembly_templates_generate [filename] fs = Some fs).
Proof.
  split_and!.
  - rewrite (write_syscall_record_cases_blocks all []). simpl.
    rewrite <- (filter_empty (λ x : string * Syscall, kind x.2 = Regular)).
    destruct (filter _ all) as [|x l]; [done|].
    rewrite fmap_cons. split; discriminate.
  - rewrite write_check_syscall_numbers_lines. simpl.
    transitivity (filter (λ x : string * Syscall, truthy (x86 x.2) = true) all = []).
    { destruct (filter _ all) as [|x l]; [done|]. split; discriminate. }
    rewrite filter_empty. apply Forall_iff. intros [name obj]. simpl.
    destruct (x86 obj) as [c|]; simpl.
    + rewrite not_true_iff_false, negb_false_iff, Z.eqb_eq. split.
      * intros ->. by right.
      * intros [?|Heq]; [done|]. by inversion Heq.
    + split; [by left|done].
  - rewrite write_syscall_helper_functions_chunks. simpl.
    destruct all as [|x l]; [done|]. rewrite !fmap_cons. split; discriminate.
  - intros Hbase Hgen Hempty Hmissing. unfold main. simpl.
    destruct (splitext (basename filename)) as [base' extension]. simpl in Hbase.
    subst base'. rewrite Hgen, Hmissing. simpl. rewrite Hempty. reflexivity.
Qed.

Lemma generators_writing_nothing_witness :
  main restart_registry (λ f, f) ["CheckSyscallNumbers.generated"] (mkFileSystem ∅ [])
  = Some (mkFileSystem ∅ []).
Proof.
  destruct (generators_writing_nothing restart_registry (λ f, f)
              "CheckSyscallNumbers" "CheckSyscallNumbers.generated"
              (write_check_syscall_numbers restart_registry) (mkFileSystem ∅ []))
    as (_ & _ & _ & Hmain).
  apply Hmain; reflexivity.
Defined.

(** ** The identity helpers decide membership exactly *)


